(** * ObjectPool<T>: a shallow embedding of codes/pool/main.cpp

    The class keeps a [std::stack<T*>], a [std::mutex] and a [const int]
    capacity.  Calls are modelled one at a time (a single thread): a member
    function is a state transformer that may return, throw or run into
    undefined behaviour.  Lock acquisition, lock release and [delete] are
    recorded in an event log carried by the object, so that statements about
    "before the lock is taken" or "how many objects were released" can be
    made.  Allocation inside [std::stack::push] is assumed to succeed. *)

From Stdlib Require Import ZArith NArith Ascii String DecimalString List Bool Lia.
Import ListNotations.
Open Scope Z_scope.

(** ** Machine integers (g++, LP64: [int] has 32 bits, [size_t] 64) *)

Module Int.

Definition int_min : Z := -2147483648.
Definition int_max : Z := 2147483647.

(** A [size_t] value: reduction modulo 2^64. *)
Definition to_size_t (z : Z) : Z := z mod 18446744073709551616.

(** Conversion to [int]: reduction modulo 2^32 into [int_min .. int_max]. *)
Definition to_int (z : Z) : Z := (z + 2147483648) mod 4294967296 - 2147483648.

End Int.

(** ** Pointers, exceptions, outcomes *)

(** A [T*] is its address; address 0 is [nullptr]. *)
Definition ptr : Type := N.
Definition nullptr : ptr := 0%N.

Inductive exception : Type :=
| runtime_error (what : string)
| invalid_argument (what : string).

Inductive result (A : Type) : Type :=
| Returns (a : A)
| Throws (e : exception)
| Undefined.
Arguments Returns {A} a.
Arguments Throws {A} e.
Arguments Undefined {A}.

Inductive event : Type :=
| Lock
| Unlock
| Delete (obj : ptr).

(** ** The object *)

(** [pool] and [capacity] are the fields of the class.  The [std::mutex] is
    free between two calls of a single thread, so it carries no state of its
    own here: what is done to it, and every [delete], goes to [log]. *)
Record ObjectPool : Type := mkObjectPool {
  pool : list ptr;        (* std::stack<T*>, top of the stack first *)
  capacity : Z;           (* const int capacity *)
  log : list event        (* what happened so far, oldest first *)
}.

Definition M (A : Type) : Type := ObjectPool -> result A * ObjectPool.

Definition ret {A} (a : A) : M A := fun s => (Returns a, s).

Definition bind {A B} (m : M A) (k : A -> M B) : M B := fun s =>
  match m s with
  | (Returns a, s') => k a s'
  | (Throws e, s') => (Throws e, s')
  | (Undefined, s') => (Undefined, s')
  end.

Definition throw {A} (e : exception) : M A := fun s => (Throws e, s).

Declare Scope pool_scope.
Delimit Scope pool_scope with pool.
Notation "x <- m ;; k" := (bind m (fun x => k))
  (at level 61, m at next level, right associativity) : pool_scope.
Notation "m ;;; k" := (bind m (fun _ => k))
  (at level 61, right associativity) : pool_scope.
Open Scope pool_scope.

Definition emit (e : event) (s : ObjectPool) : ObjectPool :=
  mkObjectPool (pool s) (capacity s) (log s ++ [e]).

Definition set_pool (l : list ptr) (s : ObjectPool) : ObjectPool :=
  mkObjectPool l (capacity s) (log s).

(** *** std::stack<T*> members used by the class.  [top] and [pop] on an
    empty stack are undefined behaviour. *)

Definition stack_empty : M bool := fun s =>
  (Returns match pool s with [] => true | _ :: _ => false end, s).

Definition stack_size : M Z := fun s =>
  (Returns (Int.to_size_t (Z.of_nat (length (pool s)))), s).

Definition stack_top : M ptr := fun s =>
  match pool s with
  | [] => (Undefined, s)
  | obj :: _ => (Returns obj, s)
  end.

Definition stack_pop : M unit := fun s =>
  match pool s with
  | [] => (Undefined, s)
  | _ :: rest => (Returns tt, set_pool rest s)
  end.

Definition stack_push (item : ptr) : M unit := fun s =>
  (Returns tt, set_pool (item :: pool s) s).

(** [delete obj] acts on the world outside the pool: the pool records the
    deletion in its log and goes on.  Whether the deletion is defined depends
    on what is alive out there, of which the class keeps no record:
    [deletes_defined] below judges a row of deletions against the objects
    alive before it, and the destructor for [Connection] objects further
    down carries the heap along. *)
Definition delete (obj : ptr) : M unit := fun s => (Returns tt, emit (Delete obj) s).

(** [std::lock_guard<std::mutex> lock(mutex)]: the mutex is taken here and
    given back when the scope is left, by return or by exception. *)
Definition lock_guard {A} (body : M A) : M A := fun s =>
  let (r, s') := body (emit Lock s) in (r, emit Unlock s').

(** ** Member functions *)

(** [explicit ObjectPool(int cap) : capacity(cap) {}] *)
Definition ctor (cap : Z) : ObjectPool := mkObjectPool [] cap [].

Definition GetCapacity : M Z := fun s => (Returns (capacity s), s).

Definition GetCount : M Z :=
  lock_guard (n <- stack_size ;; ret (Int.to_int n)).

Definition Pop : M ptr :=
  lock_guard (
    e <- stack_empty ;;
    if e : bool then throw (runtime_error "池是空的！")
    else
      obj <- stack_top ;;
      stack_pop ;;;
      ret obj).

Definition Push (item : ptr) : M unit :=
  if (item =? nullptr)%N then throw (invalid_argument "不能把 nullptr 放进对象池")
  else lock_guard (stack_push item).

(** *** The destructor: [while (!pool.empty()) { obj = top; pop; delete obj; }] *)

Definition dtor_body : M unit :=
  obj <- stack_top ;;
  stack_pop ;;;
  delete obj.

Fixpoint dtor_loop (fuel : nat) (s : ObjectPool) : option (result unit * ObjectPool) :=
  match stack_empty s with
  | (Returns true, s0) => Some (Returns tt, s0)
  | (Returns false, s0) =>
      match fuel with
      | O => None
      | S fuel' =>
          match dtor_body s0 with
          | (Returns _, s1) => dtor_loop fuel' s1
          | (r, s1) => Some (r, s1)
          end
      end
  | (Throws e, s0) => Some (Throws e, s0)
  | (Undefined, s0) => Some (Undefined, s0)
  end.

Definition dtor (s : ObjectPool) : option (result unit * ObjectPool) :=
  dtor_loop (length (pool s)) s.

(** ** Sequences of calls made by one client *)

Inductive call : Type :=
| CallGetCapacity
| CallGetCount
| CallPop
| CallPush (item : ptr).

Inductive value : Type :=
| VInt (z : Z)
| VPtr (p : ptr)
| VVoid.

Definition exec (c : call) : M value :=
  match c with
  | CallGetCapacity => z <- GetCapacity ;; ret (VInt z)
  | CallGetCount => z <- GetCount ;; ret (VInt z)
  | CallPop => p <- Pop ;; ret (VPtr p)
  | CallPush item => Push item ;;; ret VVoid
  end.

(** The client catches what a call throws and goes on; the history pairs each
    call with its outcome. *)
Fixpoint run (cs : list call) (s : ObjectPool) : list (call * result value) * ObjectPool :=
  match cs with
  | [] => ([], s)
  | c :: cs' =>
      let (r, s1) := exec c s in
      let (h, s2) := run cs' s1 in
      ((c, r) :: h, s2)
  end.

Definition give_ok (e : call * result value) : bool :=
  match e with
  | (CallPush _, Returns _) => true
  | _ => false
  end.

Definition take_ok (e : call * result value) : bool :=
  match e with
  | (CallPop, Returns _) => true
  | _ => false
  end.

Definition gives_ok (h : list (call * result value)) : Z :=
  Z.of_nat (length (filter give_ok h)).

Definition takes_ok (h : list (call * result value)) : Z :=
  Z.of_nat (length (filter take_ok h)).

(** Calls that only read: [GetCapacity] and [GetCount]. *)
Definition is_query (c : call) : bool :=
  match c with
  | CallGetCapacity | CallGetCount => true
  | CallPop | CallPush _ => false
  end.

(** The pointers a log says were deleted, oldest first. *)
Fixpoint deleted (l : list event) : list ptr :=
  match l with
  | [] => []
  | Delete obj :: l' => obj :: deleted l'
  | _ :: l' => deleted l'
  end.

(** How often the mutex was taken. *)
Definition locks (l : list event) : nat :=
  length (filter (fun e => match e with Lock => true | _ => false end) l).

(** Every stored pointer is a real one. *)
Definition no_null (s : ObjectPool) : Prop := Forall (fun p => p <> nullptr) (pool s).

(** [n] distinct objects, at the addresses 1 .. n, for the large cases. *)
Definition fresh_objects (n : nat) : list ptr := map N.of_nat (seq 1 n).

(** The pointers a history leaves in the hands of the client: those a [Pop]
    returned and no later [Push] gave back. *)
Fixpoint lent_from (held : list ptr) (h : list (call * result value)) : list ptr :=
  match h with
  | [] => held
  | (CallPop, Returns (VPtr obj)) :: h' => lent_from (obj :: held) h'
  | (CallPush item, Returns _) :: h' => lent_from (remove N.eq_dec item held) h'
  | _ :: h' => lent_from held h'
  end.

Definition lent_out (h : list (call * result value)) : list ptr := lent_from [] h.

(** A client that never pushes a pointer the pool already stores. *)
Fixpoint disciplined (cs : list call) (s : ObjectPool) : bool :=
  match cs with
  | [] => true
  | c :: cs' =>
      match c with
      | CallPush item => negb (existsb (N.eqb item) (pool s))
      | _ => true
      end && disciplined cs' (snd (exec c s))
  end.

(** Whether a call gets as far as constructing its [lock_guard]. *)
Definition takes_lock (c : call) : bool :=
  match c with
  | CallGetCapacity => false
  | CallGetCount | CallPop => true
  | CallPush item => negb (item =? nullptr)%N
  end.

(** [n] times: the mutex taken, the mutex given back. *)
Fixpoint lock_pairs (n : nat) : list event :=
  match n with
  | O => []
  | S n' => Lock :: Unlock :: lock_pairs n'
  end.

(** Two objects with the same fields of the class (the logs may differ). *)
Definition same_fields (s t : ObjectPool) : Prop :=
  pool s = pool t /\ capacity s = capacity t.

(** The pointers a history put into the pool, first to last. *)
Fixpoint pushed (h : list (call * result value)) : list ptr :=
  match h with
  | [] => []
  | (CallPush item, Returns _) :: h' => item :: pushed h'
  | _ :: h' => pushed h'
  end.

Definition is_GetCapacity (c : call) : bool :=
  match c with
  | CallGetCapacity => true
  | _ => false
  end.

(** Whether a row of deletions is defined, given the objects alive before
    it: [delete nullptr] does nothing; any other pointer must be that of an
    object still alive, which is dead from then on. *)
Fixpoint deletes_defined (alive : list ptr) (l : list ptr) : bool :=
  match l with
  | [] => true
  | p :: l' =>
      if (p =? nullptr)%N then deletes_defined alive l'
      else existsb (N.eqb p) alive && deletes_defined (remove N.eq_dec p alive) l'
  end.

(** A call either pushes a real pointer, pops the top, or leaves the stack as
    it was; it never touches the capacity and never runs into undefined
    behaviour. *)
Inductive step (s : ObjectPool) : call -> result value -> ObjectPool -> Prop :=
| step_give item s' :
    item <> nullptr -> pool s' = item :: pool s ->
    step s (CallPush item) (Returns VVoid) s'
| step_take obj s' :
    pool s = obj :: pool s' ->
    step s CallPop (Returns (VPtr obj)) s'
| step_keep c r s' :
    give_ok (c, r) = false -> take_ok (c, r) = false ->
    r <> Undefined -> r <> Returns (VPtr nullptr) ->
    (c = CallGetCapacity -> r = Returns (VInt (capacity s))) ->
    pool s' = pool s ->
    step s c r s'.

(** ** The pooled class of the demo: [Connection] *)

Record Connection : Type := mkConnection { id : Z }.

(** What the pool does not own: the [Connection] objects that are alive, by
    address, and the text written to [std::cout]. *)
Record world : Type := mkWorld {
  heap : list (ptr * Connection);
  cout : string
}.

Definition endl : string := String "010"%char EmptyString.

(** [std::cout << i] for an [int]. *)
Definition show_int (z : Z) : string := NilZero.string_of_int (Z.to_int z).

Definition print (text : string) (w : world) : world :=
  mkWorld (heap w) (cout w ++ text)%string.

Fixpoint lookup (p : ptr) (h : list (ptr * Connection)) : option Connection :=
  match h with
  | [] => None
  | (q, c) :: h' => if (p =? q)%N then Some c else lookup p h'
  end.

Definition release (p : ptr) (h : list (ptr * Connection)) : list (ptr * Connection) :=
  filter (fun e => negb (p =? fst e)%N) h.

(** [Connection(int id)] prints; [new Connection(i)] runs it on the storage
    at [a], the address the allocator hands out. *)
Definition created_text (i : Z) : string := ("创建连接 " ++ show_int i ++ endl)%string.

Definition new_Connection (a : ptr) (i : Z) (w : world) : world :=
  mkWorld ((a, mkConnection i) :: heap w) (cout w ++ created_text i)%string.

(** [~Connection()] prints. *)
Definition destroyed_text (c : Connection) : string :=
  ("销毁连接 " ++ show_int (id c) ++ endl)%string.

(** [delete p] for a [Connection*]: nothing for [nullptr]; the destructor and
    the release of the storage for a live object; undefined behaviour for
    anything else. *)
Definition delete_Connection (p : ptr) (w : world) : result unit * world :=
  if (p =? nullptr)%N then (Returns tt, w)
  else
    match lookup p (heap w) with
    | Some c => (Returns tt, mkWorld (release p (heap w)) (cout w ++ destroyed_text c)%string)
    | None => (Undefined, w)
    end.

(** [p->Use()] *)
Definition Use (p : ptr) (w : world) : result unit * world :=
  match lookup p (heap w) with
  | Some c => (Returns tt, print ("使用连接 " ++ show_int (id c) ++ endl)%string w)
  | None => (Undefined, w)
  end.

(** [p->GetId()] *)
Definition GetId (p : ptr) (w : world) : result Z * world :=
  match lookup p (heap w) with
  | Some c => (Returns (id c), w)
  | None => (Undefined, w)
  end.

(** [~ObjectPool<Connection>()]: the loop of the destructor with [delete]
    acting on the [Connection] objects. *)
Fixpoint dtor_loop_Connection (fuel : nat) (s : ObjectPool) (w : world)
  : option (result unit * ObjectPool * world) :=
  match stack_empty s with
  | (Returns true, s0) => Some (Returns tt, s0, w)
  | (Returns false, s0) =>
      match fuel with
      | O => None
      | S fuel' =>
          match (obj <- stack_top ;; stack_pop ;;; ret obj) s0 with
          | (Returns obj, s1) =>
              match delete_Connection obj w with
              | (Returns _, w1) => dtor_loop_Connection fuel' (emit (Delete obj) s1) w1
              | (Throws e, w1) => Some (Throws e, s1, w1)
              | (Undefined, w1) => Some (Undefined, s1, w1)
              end
          | (Throws e, s1) => Some (Throws e, s1, w)
          | (Undefined, s1) => Some (Undefined, s1, w)
          end
      end
  | (Throws e, s0) => Some (Throws e, s0, w)
  | (Undefined, s0) => Some (Undefined, s0, w)
  end.

Definition dtor_Connection (s : ObjectPool) (w : world)
  : option (result unit * ObjectPool * world) :=
  dtor_loop_Connection (length (pool s)) s w.

(** The text the destructors of the objects at [l] write, first to last. *)
Fixpoint destroyed_texts (l : list ptr) (h : list (ptr * Connection)) : string :=
  match l with
  | [] => EmptyString
  | p :: l' =>
      (match lookup p h with Some c => destroyed_text c | None => EmptyString end
       ++ destroyed_texts l' h)%string
  end.

(** Removing the objects at [l] from the heap. *)
Definition release_all (l : list ptr) (h : list (ptr * Connection)) : list (ptr * Connection) :=
  fold_left (fun h' p => release p h') l h.

(** ** The demo program [main] *)

(** [main] works on its pool and on the world around it. *)
Definition P (A : Type) : Type :=
  ObjectPool * world -> result A * (ObjectPool * world).

Definition retP {A} (a : A) : P A := fun sw => (Returns a, sw).

Definition bindP {A B} (m : P A) (k : A -> P B) : P B := fun sw =>
  match m sw with
  | (Returns a, sw') => k a sw'
  | (Throws e, sw') => (Throws e, sw')
  | (Undefined, sw') => (Undefined, sw')
  end.

Notation "x <~ m ;; k" := (bindP m (fun x => k))
  (at level 61, m at next level, right associativity) : pool_scope.
Notation "m ~;; k" := (bindP m (fun _ => k))
  (at level 61, right associativity) : pool_scope.

Definition on_pool {A} (m : M A) : P A := fun sw =>
  let (r, s') := m (fst sw) in (r, (s', snd sw)).

Definition on_world {A} (f : world -> result A * world) : P A := fun sw =>
  let (r, w') := f (snd sw) in (r, (fst sw, w')).

(** [std::cout << text] *)
Definition say (text : string) : P unit :=
  on_world (fun w => (Returns tt, print text w)).

(** [new Connection(i)], stored at [a]. *)
Definition new_at (a : ptr) (i : Z) : P ptr :=
  on_world (fun w => (Returns a, new_Connection a i w)).

(** The statements of [main] up to [return 0]; [a1], [a2], [a3] are the
    addresses the three [new] expressions yield, and [endl] also stands for
    the line feeds inside the literals.  [getchar()] reads from the standard
    input, which is not part of the world here. *)
Definition main_body (a1 a2 a3 : ptr) : P Z :=
  say ("=== C++ ObjectPool 测试 ===" ++ endl ++ endl)%string ~;;
  cap <~ on_pool GetCapacity ;;
  say ("创建对象池，容量：" ++ show_int cap ++ endl)%string ~;;
  n0 <~ on_pool GetCount ;;
  say ("当前对象数：" ++ show_int n0 ++ endl ++ endl)%string ~;;
  say ("放入 3 个连接..." ++ endl)%string ~;;
  c1 <~ new_at a1 1 ;; on_pool (Push c1) ~;;
  c2 <~ new_at a2 2 ;; on_pool (Push c2) ~;;
  c3 <~ new_at a3 3 ;; on_pool (Push c3) ~;;
  n1 <~ on_pool GetCount ;;
  say ("当前对象数：" ++ show_int n1 ++ endl ++ endl)%string ~;;
  say ("取出对象..." ++ endl)%string ~;;
  conn1 <~ on_pool Pop ;;
  i1 <~ on_world (GetId conn1) ;;
  say ("取出连接 " ++ show_int i1 ++ endl)%string ~;;
  n2 <~ on_pool GetCount ;;
  say ("当前对象数：" ++ show_int n2 ++ endl ++ endl)%string ~;;
  conn2 <~ on_pool Pop ;;
  i2 <~ on_world (GetId conn2) ;;
  say ("取出连接 " ++ show_int i2 ++ endl)%string ~;;
  n3 <~ on_pool GetCount ;;
  say ("当前对象数：" ++ show_int n3 ++ endl ++ endl)%string ~;;
  say ("使用对象..." ++ endl)%string ~;;
  on_world (Use conn1) ~;;
  say (endl ++ "把对象还回去..." ++ endl)%string ~;;
  on_pool (Push conn1) ~;;
  n4 <~ on_pool GetCount ;;
  say ("当前对象数：" ++ show_int n4 ++ endl ++ endl)%string ~;;
  say ("再次借出..." ++ endl)%string ~;;
  conn3 <~ on_pool Pop ;;
  i3 <~ on_world (GetId conn3) ;;
  say ("取出连接 " ++ show_int i3 ++ endl)%string ~;;
  say ("是同一个对象吗？" ++ (if (conn3 =? conn1)%N then "是" else "否")
         ++ endl ++ endl)%string ~;;
  say ("手动删除借出的对象..." ++ endl)%string ~;;
  on_world (delete_Connection conn2) ~;;
  on_world (delete_Connection conn3) ~;;
  say (endl ++ " 测试完成！" ++ endl)%string ~;;
  say ("（池子里剩余的对象会在析构函数中自动清理）" ++ endl ++ endl)%string ~;;
  retP 0.

(** [main]: the pool is constructed with capacity 10, the body runs, and on
    [return] the destructor of the pool runs.  An exception nobody catches
    ends the program on the spot. *)
Definition main (a1 a2 a3 : ptr) (w : world) : option (result Z * ObjectPool * world) :=
  match main_body a1 a2 a3 (ctor 10, w) with
  | (Returns z, (s, w1)) =>
      match dtor_Connection s w1 with
      | Some (Returns _, s', w2) => Some (Returns z, s', w2)
      | Some (Throws e, s', w2) => Some (Throws e, s', w2)
      | Some (Undefined, s', w2) => Some (Undefined, s', w2)
      | None => None
      end
  | (Throws e, (s, w1)) => Some (Throws e, s, w1)
  | (Undefined, (s, w1)) => Some (Undefined, s, w1)
  end.

Definition unlines (l : list string) : string :=
  fold_right (fun x acc => (x ++ endl ++ acc)%string) EmptyString l.

(** The output the source file lists as expected, line by line.  One line
    differs: the source lists a check mark before the words of the fourth
    line from the end, where the literal in [main] has a blank; the line is
    given here as [main] prints it. *)
Definition expected_output : string :=
  unlines
    ["=== C++ ObjectPool 测试 ==="; EmptyString;
     "创建对象池，容量：10"; "当前对象数：0"; EmptyString;
     "放入 3 个连接..."; "创建连接 1"; "创建连接 2"; "创建连接 3";
     "当前对象数：3"; EmptyString;
     "取出对象..."; "取出连接 3"; "当前对象数：2"; EmptyString;
     "取出连接 2"; "当前对象数：1"; EmptyString;
     "使用对象..."; "使用连接 3"; EmptyString;
     "把对象还回去..."; "当前对象数：2"; EmptyString;
     "再次借出..."; "取出连接 3"; "是同一个对象吗？是"; EmptyString;
     "手动删除借出的对象..."; "销毁连接 2"; "销毁连接 3"; EmptyString;
     " 测试完成！"; "（池子里剩余的对象会在析构函数中自动清理）"; EmptyString;
     "销毁连接 1"]%string.

(** ** Arithmetic of the conversions *)

Lemma to_int_to_size_t (z : Z) : Int.to_int (Int.to_size_t z) = Int.to_int z.
Proof.
  unfold Int.to_int, Int.to_size_t.
  f_equal. Z.div_mod_to_equations. lia.
Qed.

Lemma to_int_small (z : Z) :
  Int.int_min <= z <= Int.int_max -> Int.to_int z = z.
Proof.
  unfold Int.to_int, Int.int_min, Int.int_max. intros H.
  rewrite Z.mod_small; lia.
Qed.

Lemma to_int_range (z : Z) :
  Int.int_min <= Int.to_int z <= Int.int_max /\
  (z - Int.to_int z) mod 4294967296 = 0.
Proof.
  unfold Int.to_int, Int.int_min, Int.int_max.
  split; Z.div_mod_to_equations; lia.
Qed.

Lemma to_int_zero_small (z : Z) :
  0 <= z < 4294967296 -> Int.to_int z = 0 -> z = 0.
Proof.
  unfold Int.to_int. intros H E.
  destruct (Z_lt_ge_dec z 2147483648) as [L | G].
  - rewrite Z.mod_small in E; lia.
  - replace (z + 2147483648) with ((z - 2147483648) + 1 * 4294967296) in E by lia.
    rewrite Z_mod_plus_full, Z.mod_small in E; lia.
Qed.

(** ** What each member function computes *)

Lemma GetCapacity_eq (s : ObjectPool) : GetCapacity s = (Returns (capacity s), s).
Proof. reflexivity. Qed.

Lemma GetCount_eq (s : ObjectPool) :
  GetCount s =
  (Returns (Int.to_int (Z.of_nat (length (pool s)))), emit Unlock (emit Lock s)).
Proof.
  unfold GetCount, lock_guard, bind, stack_size, ret. cbn [pool emit].
  now rewrite to_int_to_size_t.
Qed.

Lemma Pop_empty (s : ObjectPool) :
  pool s = [] ->
  Pop s = (Throws (runtime_error "池是空的！"), emit Unlock (emit Lock s)).
Proof.
  intros E. destruct s as [stk cap l]. cbn [pool] in E. subst stk. reflexivity.
Qed.

Lemma Pop_cons (s : ObjectPool) (obj : ptr) (rest : list ptr) :
  pool s = obj :: rest ->
  Pop s = (Returns obj, emit Unlock (set_pool rest (emit Lock s))).
Proof.
  intros E. destruct s as [stk cap l]. cbn [pool] in E. subst stk. reflexivity.
Qed.

Lemma Push_null (s : ObjectPool) :
  Push nullptr s = (Throws (invalid_argument "不能把 nullptr 放进对象池"), s).
Proof. reflexivity. Qed.

Lemma Push_valid (s : ObjectPool) (item : ptr) :
  item <> nullptr ->
  Push item s = (Returns tt, emit Unlock (set_pool (item :: pool s) (emit Lock s))).
Proof.
  intros H. unfold Push. apply N.eqb_neq in H. rewrite H. reflexivity.
Qed.

Lemma Push_returns_inv (s s' : ObjectPool) (item : ptr) (u : unit) :
  Push item s = (Returns u, s') ->
  item <> nullptr /\ s' = emit Unlock (set_pool (item :: pool s) (emit Lock s)).
Proof.
  intros H. destruct (N.eq_dec item nullptr) as [-> | Hn].
  - rewrite Push_null in H. discriminate.
  - rewrite (Push_valid s item Hn) in H. now inversion H.
Qed.

Lemma Pop_returns_inv (s s' : ObjectPool) (obj : ptr) :
  Pop s = (Returns obj, s') ->
  exists rest, pool s = obj :: rest /\ s' = emit Unlock (set_pool rest (emit Lock s)).
Proof.
  intros H. destruct (pool s) as [| top rest] eqn:E.
  - rewrite (Pop_empty s E) in H. discriminate.
  - rewrite (Pop_cons s top rest E) in H. inversion H; subst. now exists rest.
Qed.

(** ** One call at a time *)

Lemma exec_step (c : call) (s : ObjectPool) :
  step s c (fst (exec c s)) (snd (exec c s)) /\
  capacity (snd (exec c s)) = capacity s.
Proof.
  destruct c as [ | | | item]; unfold exec, bind.
  - rewrite GetCapacity_eq. cbn. split; [apply step_keep | ]; easy.
  - rewrite GetCount_eq. cbn. split; [apply step_keep | ]; easy.
  - destruct (pool s) as [| obj rest] eqn:E.
    + rewrite (Pop_empty s E). cbn. split; [apply step_keep | ]; easy.
    + rewrite (Pop_cons s obj rest E). cbn. split; [apply step_take | ]; easy.
  - destruct (N.eq_dec item nullptr) as [-> | Hn].
    + rewrite Push_null. cbn. split; [apply step_keep | ]; easy.
    + rewrite (Push_valid s item Hn). cbn. split; [apply step_give | ]; easy.
Qed.

Lemma exec_defined (c : call) (s : ObjectPool) : fst (exec c s) <> Undefined.
Proof.
  destruct (exec_step c s) as [St _].
  destruct St; try discriminate; assumption.
Qed.

Lemma run_cons (c : call) (cs : list call) (s : ObjectPool) :
  run (c :: cs) s =
  ((c, fst (exec c s)) :: fst (run cs (snd (exec c s))),
   snd (run cs (snd (exec c s)))).
Proof.
  cbn [run]. destruct (exec c s) as [r s1]. cbn [fst snd].
  now destruct (run cs s1).
Qed.

Lemma gives_ok_cons (e : call * result value) (h : list (call * result value)) :
  gives_ok (e :: h) = (if give_ok e then 1 else 0) + gives_ok h.
Proof.
  unfold gives_ok. cbn [filter]. destruct (give_ok e); cbn [length]; lia.
Qed.

Lemma takes_ok_cons (e : call * result value) (h : list (call * result value)) :
  takes_ok (e :: h) = (if take_ok e then 1 else 0) + takes_ok h.
Proof.
  unfold takes_ok. cbn [filter]. destruct (take_ok e); cbn [length]; lia.
Qed.

Lemma run_capacity (cs : list call) :
  forall s, capacity (snd (run cs s)) = capacity s.
Proof.
  induction cs as [| c cs IH]; intros s; [reflexivity | ].
  rewrite run_cons. cbn [snd]. rewrite IH. apply exec_step.
Qed.

Lemma run_length (cs : list call) :
  forall s,
    Z.of_nat (length (pool (snd (run cs s)))) =
    Z.of_nat (length (pool s)) + gives_ok (fst (run cs s)) - takes_ok (fst (run cs s)).
Proof.
  induction cs as [| c cs IH]; intros s.
  - cbn. unfold gives_ok, takes_ok. cbn. lia.
  - rewrite run_cons. cbn [fst snd]. rewrite IH, gives_ok_cons, takes_ok_cons.
    destruct (exec_step c s) as [St _].
    destruct St as [item s' Hn Hp | obj s' Hp | c' r s' Hg Ht _ _ _ Hp].
    + rewrite Hp. cbn [give_ok take_ok length]. lia.
    + rewrite Hp. cbn [give_ok take_ok length]. lia.
    + rewrite Hg, Ht, Hp. lia.
Qed.

Lemma run_queries (qs : list call) :
  forallb is_query qs = true ->
  forall s, pool (snd (run qs s)) = pool s.
Proof.
  induction qs as [| q qs IH]; intros Hq s; [reflexivity | ].
  cbn [forallb] in Hq. apply andb_true_iff in Hq as [Hq1 Hq2].
  rewrite run_cons. cbn [snd]. rewrite (IH Hq2).
  destruct q; try discriminate; reflexivity.
Qed.

Lemma exec_Push_valid (s : ObjectPool) (item : ptr) :
  item <> nullptr ->
  exec (CallPush item) s =
  (Returns VVoid, emit Unlock (set_pool (item :: pool s) (emit Lock s))).
Proof.
  intros Hn. unfold exec, bind. now rewrite (Push_valid s item Hn).
Qed.

(** Pushing a list of real pointers, first to last. *)
Lemma run_pushes (items : list ptr) :
  Forall (fun p => p <> nullptr) items ->
  forall s,
    fst (run (map CallPush items) s) = map (fun p => (CallPush p, Returns VVoid)) items /\
    pool (snd (run (map CallPush items) s)) = rev items ++ pool s.
Proof.
  induction 1 as [| item items Hn _ IH]; intros s; [now split | ].
  cbn [map]. rewrite run_cons, (exec_Push_valid s item Hn). cbn [fst snd].
  destruct (IH (emit Unlock (set_pool (item :: pool s) (emit Lock s)))) as [H1 H2].
  rewrite H1, H2. cbn [pool emit set_pool rev]. now rewrite <- app_assoc.
Qed.

Lemma gives_ok_pushes (items : list ptr) :
  gives_ok (map (fun p => (CallPush p, Returns VVoid)) items) = Z.of_nat (length items).
Proof.
  induction items as [| p items IH]; [reflexivity | ].
  cbn [map]. rewrite gives_ok_cons, IH. cbn [give_ok length]. lia.
Qed.

Lemma takes_ok_pushes (items : list ptr) :
  takes_ok (map (fun p => (CallPush p, Returns VVoid)) items) = 0.
Proof.
  induction items as [| p items IH]; [reflexivity | ].
  cbn [map]. rewrite takes_ok_cons, IH. reflexivity.
Qed.

Lemma fresh_objects_length (n : nat) : length (fresh_objects n) = n.
Proof. unfold fresh_objects. now rewrite length_map, length_seq. Qed.

Lemma fresh_objects_no_null (n : nat) :
  Forall (fun p => p <> nullptr) (fresh_objects n).
Proof.
  unfold fresh_objects. apply Forall_forall. intros p Hp.
  apply in_map_iff in Hp as [i [<- Hi]]. apply in_seq in Hi.
  unfold nullptr. lia.
Qed.


(** ** The destructor's loop *)

Lemma dtor_loop_drains (stk : list ptr) :
  forall (fuel : nat) (cap : Z) (l : list event),
    (length stk <= fuel)%nat ->
    dtor_loop fuel (mkObjectPool stk cap l) =
    Some (Returns tt, mkObjectPool [] cap (l ++ map Delete stk)).
Proof.
  induction stk as [| obj rest IH]; intros fuel cap l Hf.
  - destruct fuel; cbn; now rewrite app_nil_r.
  - destruct fuel as [| fuel]; [cbn in Hf; lia | ].
    cbn [length] in Hf. apply le_S_n in Hf.
    cbn. unfold emit, set_pool. cbn [pool capacity log].
    rewrite (IH fuel cap (l ++ [Delete obj]) Hf).
    now rewrite <- app_assoc.
Qed.

Lemma deleted_app (l1 l2 : list event) :
  deleted (l1 ++ l2) = deleted l1 ++ deleted l2.
Proof.
  induction l1 as [| e l1 IH]; [reflexivity | ].
  destruct e; cbn; now rewrite IH.
Qed.

Lemma deleted_map_Delete (stk : list ptr) : deleted (map Delete stk) = stk.
Proof. induction stk as [| p stk IH]; cbn; congruence. Qed.

Lemma locks_app (l1 l2 : list event) : locks (l1 ++ l2) = (locks l1 + locks l2)%nat.
Proof. unfold locks. now rewrite filter_app, length_app. Qed.

Lemma locks_map_Delete (stk : list ptr) : locks (map Delete stk) = 0%nat.
Proof. unfold locks. induction stk as [| p stk IH]; cbn; auto. Qed.

(** ** Properties of the pool *)

(** C1 (LIFO order): whenever [Push a], [Push b], [Push c] are made one after
    the other and all three return, the next three [Pop] calls return [c],
    then [b], then [a], and the stack is back to what it was before. *)
Theorem lifo_three (s s1 s2 s3 : ObjectPool) (a b c : ptr) :
  Push a s = (Returns tt, s1) ->
  Push b s1 = (Returns tt, s2) ->
  Push c s2 = (Returns tt, s3) ->
  exists s4 s5 s6,
    Pop s3 = (Returns c, s4) /\
    Pop s4 = (Returns b, s5) /\
    Pop s5 = (Returns a, s6) /\
    pool s6 = pool s.
Proof.
  intros Ha Hb Hc.
  apply Push_returns_inv in Ha as [_ ->].
  apply Push_returns_inv in Hb as [_ ->].
  apply Push_returns_inv in Hc as [_ ->].
  eexists; eexists; eexists.
  split; [ | split; [ | split]].
  - apply Pop_cons. reflexivity.
  - apply Pop_cons. reflexivity.
  - apply Pop_cons. reflexivity.
  - reflexivity.
Qed.

Lemma lifo_three_witness :
  exists s4 s5 s6,
    Pop (snd (run [CallPush 1%N; CallPush 2%N; CallPush 3%N] (ctor 10)))
      = (Returns 3%N, s4) /\
    Pop s4 = (Returns 2%N, s5) /\
    Pop s5 = (Returns 1%N, s6) /\
    pool s6 = pool (ctor 10).
Proof.
  apply (lifo_three (ctor 10)
           (snd (Push 1%N (ctor 10)))
           (snd (run [CallPush 1%N; CallPush 2%N] (ctor 10)))
           (snd (run [CallPush 1%N; CallPush 2%N; CallPush 3%N] (ctor 10)))
           1%N 2%N 3%N); reflexivity.
Defined.

(** C3 (invalid-return rejection): [Push nullptr] throws [invalid_argument]
    from every state and hands the object back exactly as it was: same stack,
    same count, and a log to which no [Lock] was added, the test coming
    before the [lock_guard]. *)
Theorem Push_nullptr_rejected (s : ObjectPool) :
  let s' := snd (Push nullptr s) in
  fst (Push nullptr s) = Throws (invalid_argument "不能把 nullptr 放进对象池") /\
  s' = s /\
  pool s' = pool s /\
  fst (GetCount s') = fst (GetCount s) /\
  log s' = log s /\
  locks (log s') = locks (log s).
Proof.
  rewrite Push_null. cbn [fst snd]. repeat split.
Qed.

(** C5 (round-trip identity): after a [Push x] that returns, and any number
    of [GetCount] / [GetCapacity] calls but no other [Push] or [Pop], the
    next [Pop] returns the very pointer [x] and leaves the stack as it was
    before the [Push]. *)
Theorem give_then_take (s s1 : ObjectPool) (x : ptr) (qs : list call) :
  Push x s = (Returns tt, s1) ->
  forallb is_query qs = true ->
  exists s2,
    Pop (snd (run qs s1)) = (Returns x, s2) /\
    pool s2 = pool s.
Proof.
  intros Hx Hq.
  apply Push_returns_inv in Hx as [_ ->].
  eexists. split.
  - apply Pop_cons. rewrite (run_queries qs Hq). reflexivity.
  - reflexivity.
Qed.

Lemma give_then_take_witness :
  exists s2,
    Pop (snd (run [CallGetCount; CallGetCapacity] (snd (Push 7%N (ctor 10)))))
      = (Returns 7%N, s2) /\
    pool s2 = pool (ctor 10).
Proof.
  apply (give_then_take (ctor 10) (snd (Push 7%N (ctor 10))) 7%N
           [CallGetCount; CallGetCapacity]); reflexivity.
Defined.

(** C9 (construction): the constructor accepts every capacity, zero and
    negative ones included, and yields a pool with an empty stack, count 0,
    the given capacity, and nothing locked or deleted so far. *)
Theorem ctor_any_capacity (cap : Z) :
  pool (ctor cap) = [] /\
  fst (GetCount (ctor cap)) = Returns 0 /\
  fst (GetCapacity (ctor cap)) = Returns cap /\
  log (ctor cap) = [].
Proof.
  repeat split.
Qed.

(** *** Whole histories *)

Lemma run_no_null (cs : list call) :
  forall s,
    no_null s ->
    no_null (snd (run cs s)) /\
    Forall (fun e => snd e <> Returns (VPtr nullptr)) (fst (run cs s)).
Proof.
  unfold no_null.
  induction cs as [| c cs IH]; intros s Hs; [now split | ].
  rewrite run_cons. cbn [fst snd].
  destruct (exec_step c s) as [St _].
  destruct St as [item s' Hn Hp | obj s' Hp | c' r s' _ _ _ Hr _ Hp].
  - destruct (IH s') as [H1 H2]; [rewrite Hp; now constructor | ].
    split; [exact H1 | constructor; [discriminate | exact H2]].
  - rewrite Hp in Hs. inversion Hs as [| ? ? Hobj Hrest]; subst.
    destruct (IH s' Hrest) as [H1 H2].
    split; [exact H1 | constructor; [ | exact H2]].
    cbn [snd]. intros E. inversion E. contradiction.
  - destruct (IH s') as [H1 H2]; [now rewrite Hp | ].
    split; [exact H1 | constructor; [exact Hr | exact H2]].
Qed.

Lemma run_GetCapacity (cs : list call) :
  forall s,
    Forall (fun e => fst e = CallGetCapacity -> snd e = Returns (VInt (capacity s)))
           (fst (run cs s)).
Proof.
  induction cs as [| c cs IH]; intros s; [constructor | ].
  rewrite run_cons. cbn [fst].
  destruct (exec_step c s) as [St Hc].
  constructor.
  - cbn [fst snd]. destruct St; try discriminate. assumption.
  - rewrite <- Hc. apply IH.
Qed.

(** C8 (capacity is immutable): after construction with [cap] and any
    sequence of [Pop], [Push], [GetCount] and [GetCapacity] calls,
    [GetCapacity] returns [cap]; so did every [GetCapacity] call made along
    the way. *)
Theorem capacity_never_changes (cap : Z) (cs : list call) :
  fst (GetCapacity (snd (run cs (ctor cap)))) = Returns cap /\
  capacity (snd (run cs (ctor cap))) = cap /\
  Forall (fun e => fst e = CallGetCapacity -> snd e = Returns (VInt cap))
         (fst (run cs (ctor cap))).
Proof.
  rewrite GetCapacity_eq, run_capacity. cbn [fst capacity ctor].
  repeat split. apply (run_GetCapacity cs (ctor cap)).
Qed.

(** C10 (no null in the store): the freshly constructed pool holds no
    [nullptr], every call keeps it that way, hence no state reached from the
    constructor holds one, no [Pop] of such a history returned [nullptr], and
    a [Pop] on a null-free stack cannot return [nullptr]. *)
Theorem store_never_holds_nullptr (cap : Z) (cs : list call) :
  no_null (ctor cap) /\
  (forall s c, no_null s -> no_null (snd (exec c s))) /\
  no_null (snd (run cs (ctor cap))) /\
  Forall (fun e => snd e <> Returns (VPtr nullptr)) (fst (run cs (ctor cap))) /\
  (forall s, no_null s -> fst (Pop s) <> Returns nullptr).
Proof.
  assert (H0 : no_null (ctor cap)) by constructor.
  split; [exact H0 | ].
  split.
  { intros s c Hs. destruct (run_no_null [c] s Hs) as [H _].
    rewrite run_cons in H. exact H. }
  destruct (run_no_null cs (ctor cap) H0) as [H1 H2].
  split; [exact H1 | split; [exact H2 | ]].
  intros s Hs E.
  destruct (Pop s) as [r s'] eqn:EP. cbn [fst] in E. subst r.
  apply Pop_returns_inv in EP as [rest [Hp _]].
  unfold no_null in Hs. rewrite Hp in Hs. inversion Hs. contradiction.
Qed.

(** *** Ownership along a history *)

Lemma exec_deleted (c : call) (s : ObjectPool) :
  deleted (log (snd (exec c s))) = deleted (log s).
Proof.
  destruct c as [ | | | item]; unfold exec, bind.
  - reflexivity.
  - rewrite GetCount_eq. cbn. now rewrite !deleted_app, !app_nil_r.
  - destruct (pool s) as [| obj rest] eqn:E.
    + rewrite (Pop_empty s E). cbn. now rewrite !deleted_app, !app_nil_r.
    + rewrite (Pop_cons s obj rest E). cbn. now rewrite !deleted_app, !app_nil_r.
  - destruct (N.eq_dec item nullptr) as [-> | Hn].
    + now rewrite Push_null.
    + rewrite (Push_valid s item Hn). cbn. now rewrite !deleted_app, !app_nil_r.
Qed.

Lemma run_deleted (cs : list call) :
  forall s, deleted (log (snd (run cs s))) = deleted (log s).
Proof.
  induction cs as [| c cs IH]; intros s; [reflexivity | ].
  rewrite run_cons. cbn [snd]. rewrite IH. apply exec_deleted.
Qed.

Lemma lent_disjoint (cs : list call) :
  forall s held,
    disciplined cs s = true ->
    NoDup (pool s) ->
    (forall p, In p held -> ~ In p (pool s)) ->
    forall p, In p (lent_from held (fst (run cs s))) -> ~ In p (pool (snd (run cs s))).
Proof.
  induction cs as [| c cs IH]; intros s held Hd Hnd Hheld; [exact Hheld | ].
  cbn [disciplined] in Hd. apply andb_true_iff in Hd as [Hc Hd].
  rewrite run_cons. cbn [fst snd].
  destruct (exec_step c s) as [St _].
  destruct St as [item s' Hn Hp | obj s' Hp | c' r s' Hg Ht _ _ _ Hp].
  - cbn [lent_from]. apply IH; [exact Hd | | ].
    + rewrite Hp. constructor; [ | exact Hnd].
      apply negb_true_iff in Hc. intros Hin.
      assert (existsb (N.eqb item) (pool s) = true)
        by (apply existsb_exists; exists item; split; [exact Hin | apply N.eqb_refl]).
      congruence.
    + intros p Hin. apply in_remove in Hin as [Hin Hne].
      rewrite Hp. intros [Heq | Hin']; [congruence | exact (Hheld p Hin Hin')].
  - cbn [lent_from]. rewrite Hp in Hnd, Hheld. inversion Hnd as [| ? ? Hobj Hnd']; subst.
    apply IH; [exact Hd | exact Hnd' | ].
    intros p [<- | Hin]; [exact Hobj | ].
    intros Hin'. apply (Hheld p Hin). now right.
  - assert (E : lent_from held ((c', r) :: fst (run cs s')) = lent_from held (fst (run cs s'))).
    { destruct c' as [ | | | item]; destruct r as [[z | q | ] | e | ];
        try reflexivity; discriminate. }
    rewrite E. apply IH; [exact Hd | now rewrite Hp | ].
    intros p Hin. rewrite Hp. now apply Hheld.
Qed.

Lemma deletes_defined_distinct (l : list ptr) :
  forall alive,
    NoDup l -> (forall p, In p l -> In p alive) ->
    deletes_defined alive l = true.
Proof.
  induction l as [| p l IH]; intros alive Hnd Hin; [reflexivity | ].
  inversion Hnd as [| ? ? Hp Hnd']; subst.
  cbn [deletes_defined].
  destruct (p =? nullptr)%N.
  - apply IH; [exact Hnd' | ]. intros q Hq. apply Hin. now right.
  - apply andb_true_iff. split.
    + apply existsb_exists. exists p. split; [apply Hin; now left | apply N.eqb_refl].
    + apply IH; [exact Hnd' | ]. intros q Hq.
      apply in_in_remove; [intros -> ; contradiction | apply Hin; now right].
Qed.

(** C7, as stated, fails: [Push] takes a pointer the pool already stores, so
    after [Push c], [Push c], [Pop] (all three return) the object [c] is lent
    out and still stored, and the destructor deletes it: one release of an
    object that is lent out, not zero. *)
Lemma dtor_deletes_lent_object :
  let cs := [CallPush 16%N; CallPush 16%N; CallPop] in
  let h := fst (run cs (ctor 10)) in
  let s := snd (run cs (ctor 10)) in
  h = [(CallPush 16%N, Returns VVoid); (CallPush 16%N, Returns VVoid);
       (CallPop, Returns (VPtr 16%N))] /\
  lent_out h = [16%N] /\
  pool s = [16%N] /\
  option_map (fun rs => (fst rs, deleted (log (snd rs)))) (dtor s) =
    Some (Returns tt, [16%N]).
Proof.
  cbv zeta. repeat split.
Qed.

(** C7 (teardown), amended: on a pool whose k stored pointers are pairwise
    distinct and point to objects that are alive, the destructor terminates,
    returns normally and empties the stack; what it adds to the log is one
    [Delete] per stored pointer, top of the stack first, and nothing else.
    So there are exactly k deletions, each defined, one on each stored
    object; a pointer that is not in the store is deleted no more often than
    before; and no lock is taken.  Any fuel of at least k gives the same
    result.  When the pool was reached from the constructor by a client that
    never pushes what the pool already stores, the pointers still lent out
    are deleted zero times. *)
Theorem dtor_releases_store (s : ObjectPool) (alive : list ptr) :
  NoDup (pool s) ->
  (forall p, In p (pool s) -> In p alive) ->
  exists s',
    dtor s = Some (Returns tt, s') /\
    pool s' = [] /\
    capacity s' = capacity s /\
    log s' = log s ++ map Delete (pool s) /\
    deleted (log s') = deleted (log s) ++ pool s /\
    length (deleted (log s')) = (length (deleted (log s)) + length (pool s))%nat /\
    deletes_defined alive (pool s) = true /\
    (forall p, In p (pool s) ->
       count_occ N.eq_dec (deleted (log s')) p =
       S (count_occ N.eq_dec (deleted (log s)) p)) /\
    (forall p, ~ In p (pool s) ->
       count_occ N.eq_dec (deleted (log s')) p = count_occ N.eq_dec (deleted (log s)) p) /\
    locks (log s') = locks (log s) /\
    (forall fuel, (length (pool s) <= fuel)%nat -> dtor_loop fuel s = dtor s) /\
    (forall cap cs,
       s = snd (run cs (ctor cap)) -> disciplined cs (ctor cap) = true ->
       forall p, In p (lent_out (fst (run cs (ctor cap)))) ->
         count_occ N.eq_dec (deleted (log s')) p = 0%nat).
Proof.
  intros Hnd Halive.
  assert (Hlent : forall cap cs,
             s = snd (run cs (ctor cap)) -> disciplined cs (ctor cap) = true ->
             forall p, In p (lent_out (fst (run cs (ctor cap)))) ->
               deleted (log s) = [] /\ ~ In p (pool s)).
  { intros cap cs -> Hd p Hin. split.
    - now rewrite run_deleted.
    - apply (lent_disjoint cs (ctor cap) [] Hd); [constructor | easy | exact Hin]. }
  destruct s as [stk cap l]. unfold dtor. cbn [pool capacity log] in *.
  exists (mkObjectPool [] cap (l ++ map Delete stk)). cbn [pool capacity log].
  assert (Hd : deleted (l ++ map Delete stk) = deleted l ++ stk)
    by now rewrite deleted_app, deleted_map_Delete.
  assert (Hout : forall p, ~ In p stk ->
             count_occ N.eq_dec (deleted (l ++ map Delete stk)) p =
             count_occ N.eq_dec (deleted l) p).
  { intros p Hp. rewrite Hd, count_occ_app.
    apply (count_occ_not_In N.eq_dec) in Hp.
    unfold ptr in *. rewrite Hp. apply Nat.add_0_r. }
  split; [now apply dtor_loop_drains | ].
  repeat split.
  - exact Hd.
  - now rewrite Hd, length_app.
  - now apply deletes_defined_distinct.
  - intros p Hp. rewrite Hd, count_occ_app.
    pose proof (proj1 (NoDup_count_occ' N.eq_dec stk) Hnd p Hp) as H1.
    unfold ptr in *. rewrite H1. apply Nat.add_1_r.
  - exact Hout.
  - rewrite locks_app, locks_map_Delete. lia.
  - intros fuel Hf. now rewrite !dtor_loop_drains.
  - intros cap' cs Hs Hdisc p Hin.
    destruct (Hlent cap' cs Hs Hdisc p Hin) as [Hnone Hnot].
    rewrite (Hout p Hnot), Hnone. reflexivity.
Qed.

Lemma dtor_releases_store_witness :
  let s := snd (run [CallPush 1%N; CallPush 2%N; CallPush 3%N; CallPop; CallPop;
                     CallPush 3%N; CallPop] (ctor 10)) in
  let alive := [1%N; 2%N; 3%N] in
  exists s',
    dtor s = Some (Returns tt, s') /\
    pool s' = [] /\
    capacity s' = capacity s /\
    log s' = log s ++ map Delete (pool s) /\
    deleted (log s') = deleted (log s) ++ pool s /\
    length (deleted (log s')) = (length (deleted (log s)) + length (pool s))%nat /\
    deletes_defined alive (pool s) = true /\
    (forall p, In p (pool s) ->
       count_occ N.eq_dec (deleted (log s')) p =
       S (count_occ N.eq_dec (deleted (log s)) p)) /\
    (forall p, ~ In p (pool s) ->
       count_occ N.eq_dec (deleted (log s')) p = count_occ N.eq_dec (deleted (log s)) p) /\
    locks (log s') = locks (log s) /\
    (forall fuel, (length (pool s) <= fuel)%nat -> dtor_loop fuel s = dtor s) /\
    (forall cap cs,
       s = snd (run cs (ctor cap)) -> disciplined cs (ctor cap) = true ->
       forall p, In p (lent_out (fst (run cs (ctor cap)))) ->
         count_occ N.eq_dec (deleted (log s')) p = 0%nat).
Proof.
  cbv zeta.
  apply (dtor_releases_store
           (snd (run [CallPush 1%N; CallPush 2%N; CallPush 3%N; CallPop; CallPop;
                      CallPush 3%N; CallPop] (ctor 10)))
           [1%N; 2%N; 3%N]).
  - cbn. repeat constructor. intros [].
  - cbn. intros p [<- | []]. now left.
Defined.

(** *** The count as an [int] *)

Lemma GetCount_after_pushes (n : nat) (cap : Z) :
  fst (GetCount (snd (run (map CallPush (fresh_objects n)) (ctor cap)))) =
  Returns (Int.to_int (Z.of_nat n)).
Proof.
  destruct (run_pushes _ (fresh_objects_no_null n) (ctor cap)) as [_ Hp].
  rewrite GetCount_eq. cbn [fst]. rewrite Hp, length_app, length_rev, fresh_objects_length.
  cbn [pool ctor length]. now rewrite Nat.add_0_r.
Qed.


(** X14 ([Pop] where the count is true): when [GetCount] returns 0 and the
    store holds fewer than 2^32 objects, [Pop] throws [runtime_error]; the
    stack and the capacity are as before, nothing was deleted and [GetCount]
    still returns 0. *)
Theorem Pop_on_empty_pool (s : ObjectPool) :
  fst (GetCount s) = Returns 0 ->
  Z.of_nat (length (pool s)) < 4294967296 ->
  exists s',
    Pop s = (Throws (runtime_error "池是空的！"), s') /\
    pool s' = pool s /\
    capacity s' = capacity s /\
    deleted (log s') = deleted (log s) /\
    fst (GetCount s') = Returns 0.
Proof.
  intros Hc Hlt. rewrite GetCount_eq in Hc. cbn [fst] in Hc.
  assert (E : pool s = []).
  { inversion Hc as [Hz]. apply to_int_zero_small in Hz; [ | lia].
    destruct (pool s); [reflexivity | discriminate]. }
  exists (emit Unlock (emit Lock s)).
  split; [now apply Pop_empty | ].
  rewrite GetCount_eq. cbn [pool emit fst log]. rewrite E.
  repeat split. now rewrite !deleted_app, !app_nil_r.
Qed.

Lemma Pop_on_empty_pool_witness :
  exists s',
    Pop (ctor 10) = (Throws (runtime_error "池是空的！"), s') /\
    pool s' = pool (ctor 10) /\
    capacity s' = capacity (ctor 10) /\
    deleted (log s') = deleted (log (ctor 10)) /\
    fst (GetCount s') = Returns 0.
Proof.
  apply (Pop_on_empty_pool (ctor 10)); [reflexivity | cbn; lia].
Defined.

(** C6 at the failing input: after 2^31 [Push] calls that returned and no
    [Pop], the store holds 2^31 objects, which is the number of [Push] calls
    that returned minus the number of [Pop] calls that returned, while
    [GetCount] returns -2^31: the [size_t] of [pool.size()] does not fit the
    [int] the function returns. *)
Lemma GetCount_wraps_after_many_gives :
  let cs := map CallPush (fresh_objects (Z.to_nat 2147483648)) in
  let h := fst (run cs (ctor 10)) in
  let s := snd (run cs (ctor 10)) in
  gives_ok h - takes_ok h = 2147483648 /\
  Z.of_nat (length (pool s)) = 2147483648 /\
  fst (GetCount s) = Returns (-2147483648) /\
  fst (GetCount s) <> Returns (gives_ok h - takes_ok h).
Proof.
  cbv zeta.
  assert (Hn : Z.of_nat (Z.to_nat 2147483648) = 2147483648) by (apply Z2Nat.id; lia).
  generalize dependent (Z.to_nat 2147483648). intros n Hn.
  destruct (run_pushes _ (fresh_objects_no_null n) (ctor 10)) as [Hh Hp].
  rewrite GetCount_after_pushes, Hh, Hp, gives_ok_pushes, takes_ok_pushes.
  rewrite length_app, length_rev, fresh_objects_length, Hn.
  cbn [pool ctor length].
  split; [reflexivity | split; [lia | split; [reflexivity | discriminate]]].
Qed.

(** X15 (the store keeps count): for every history of a freshly constructed
    pool, the number of stored objects is the number of [Push] calls that
    returned minus the number of [Pop] calls that returned; a [Pop] that
    returns takes exactly one object out of the store and a [Push] that
    returns puts exactly one in.  [GetCount] returns that number reduced to
    an [int], which is the number itself if and only if it is at most
    [INT_MAX]; in that range a [Pop] that returns lowers what [GetCount]
    returns by exactly one and, below [INT_MAX], a [Push] that returns raises
    it by exactly one. *)
Theorem store_size_accounting (cap : Z) (cs : list call) :
  let h := fst (run cs (ctor cap)) in
  let s := snd (run cs (ctor cap)) in
  Z.of_nat (length (pool s)) = gives_ok h - takes_ok h /\
  fst (GetCount s) = Returns (Int.to_int (gives_ok h - takes_ok h)) /\
  (fst (GetCount s) = Returns (gives_ok h - takes_ok h) <->
   gives_ok h - takes_ok h <= Int.int_max) /\
  (forall obj s', Pop s = (Returns obj, s') ->
     length (pool s) = S (length (pool s'))) /\
  (forall item s', Push item s = (Returns tt, s') ->
     length (pool s') = S (length (pool s))) /\
  (gives_ok h - takes_ok h <= Int.int_max ->
   forall obj s', Pop s = (Returns obj, s') ->
     fst (GetCount s') = Returns (gives_ok h - takes_ok h - 1)) /\
  (gives_ok h - takes_ok h < Int.int_max ->
   forall item s', Push item s = (Returns tt, s') ->
     fst (GetCount s') = Returns (gives_ok h - takes_ok h + 1)).
Proof.
  cbv zeta.
  pose proof (run_length cs (ctor cap)) as Hlen.
  cbn [pool ctor length] in Hlen.
  assert (Hlen' : Z.of_nat (length (pool (snd (run cs (ctor cap))))) =
                  gives_ok (fst (run cs (ctor cap))) - takes_ok (fst (run cs (ctor cap))))
    by lia.
  rewrite GetCount_eq. cbn [fst]. rewrite Hlen'.
  split; [reflexivity | split; [reflexivity | ]].
  split; [ | split; [ | split; [ | split]]].
  - destruct (to_int_range (gives_ok (fst (run cs (ctor cap))) -
                            takes_ok (fst (run cs (ctor cap))))) as [Hr _].
    split.
    + intros H. inversion H as [E]. rewrite E in Hr. lia.
    + intros H. f_equal. apply to_int_small. unfold Int.int_min. lia.
  - intros obj s' HP. apply Pop_returns_inv in HP as [rest [Hp ->]].
    now rewrite Hp.
  - intros item s' HP. apply Push_returns_inv in HP as [_ ->]. reflexivity.
  - intros Hmax obj s' HP. apply Pop_returns_inv in HP as [rest [Hp ->]].
    rewrite GetCount_eq. cbn [fst pool emit set_pool]. f_equal.
    rewrite Hp in Hlen'. cbn [length] in Hlen'.
    rewrite to_int_small; unfold Int.int_min, Int.int_max in *; lia.
  - intros Hmax item s' HP. apply Push_returns_inv in HP as [_ ->].
    rewrite GetCount_eq. cbn [fst pool emit set_pool length]. f_equal.
    rewrite to_int_small; unfold Int.int_min, Int.int_max in *; lia.
Qed.

(** *** Capacity is never consulted *)

Lemma repeat_as_map (item : ptr) (n : nat) :
  repeat (CallPush item) n = map CallPush (repeat item n).
Proof. induction n as [| n IH]; cbn; congruence. Qed.

(** C4 (capacity is advisory): a [Push] of a real pointer returns normally
    from every state, whatever the capacity and however many objects are
    stored, puts the pointer on top and leaves the capacity alone.  Repeating
    it reaches every size from the present one upwards, in particular every
    size above the capacity, with every single [Push] returning. *)
Theorem Push_never_checks_capacity (s : ObjectPool) (item : ptr) :
  item <> nullptr ->
  (exists s',
     Push item s = (Returns tt, s') /\
     pool s' = item :: pool s /\
     capacity s' = capacity s) /\
  (forall n : nat,
     capacity s < Z.of_nat n -> (length (pool s) <= n)%nat ->
     exists h s',
       run (repeat (CallPush item) (n - length (pool s))) s = (h, s') /\
       Forall (fun e => snd e = Returns VVoid) h /\
       length (pool s') = n /\
       capacity s < Z.of_nat (length (pool s')) /\
       capacity s' = capacity s).
Proof.
  intros Hn. split.
  - eexists. split; [apply (Push_valid s item Hn) | split; reflexivity].
  - intros n Hcap Hle.
    set (k := (n - length (pool s))%nat).
    assert (Hall : Forall (fun p => p <> nullptr) (repeat item k)).
    { apply Forall_forall. intros p Hp. apply repeat_spec in Hp. now subst p. }
    destruct (run_pushes _ Hall s) as [Hh Hp].
    exists (fst (run (repeat (CallPush item) k) s)),
           (snd (run (repeat (CallPush item) k) s)).
    rewrite repeat_as_map.
    assert (Hlen : length (pool (snd (run (map CallPush (repeat item k)) s))) = n).
    { rewrite Hp, length_app, length_rev, repeat_length. subst k. lia. }
    split; [now destruct (run _ s) | ].
    split.
    { rewrite Hh. apply Forall_forall. intros e He.
      apply in_map_iff in He as [p [<- _]]. reflexivity. }
    split; [exact Hlen | ].
    split; [now rewrite Hlen | apply run_capacity].
Qed.

Lemma Push_never_checks_capacity_witness :
  let s := snd (run [CallPush 1%N; CallPush 2%N; CallPush 3%N] (ctor 2)) in
  (exists s',
     Push 4%N s = (Returns tt, s') /\
     pool s' = 4%N :: pool s /\
     capacity s' = capacity s) /\
  (forall n : nat,
     capacity s < Z.of_nat n -> (length (pool s) <= n)%nat ->
     exists h s',
       run (repeat (CallPush 4%N) (n - length (pool s))) s = (h, s') /\
       Forall (fun e => snd e = Returns VVoid) h /\
       length (pool s') = n /\
       capacity s < Z.of_nat (length (pool s')) /\
       capacity s' = capacity s).
Proof.
  cbv zeta.
  apply (Push_never_checks_capacity
           (snd (run [CallPush 1%N; CallPush 2%N; CallPush 3%N] (ctor 2))) 4%N).
  discriminate.
Defined.

(** The run of [main], with the objects at addresses 1, 2 and 3: the outcomes
    are the ones the source lists as expected output. *)
Example main_scenario :
  fst (run [CallGetCapacity; CallGetCount;
            CallPush 1%N; CallPush 2%N; CallPush 3%N; CallGetCount;
            CallPop; CallGetCount; CallPop; CallGetCount;
            CallPush 3%N; CallGetCount; CallPop] (ctor 10))
  = [(CallGetCapacity, Returns (VInt 10)); (CallGetCount, Returns (VInt 0));
     (CallPush 1%N, Returns VVoid); (CallPush 2%N, Returns VVoid);
     (CallPush 3%N, Returns VVoid); (CallGetCount, Returns (VInt 3));
     (CallPop, Returns (VPtr 3%N)); (CallGetCount, Returns (VInt 2));
     (CallPop, Returns (VPtr 2%N)); (CallGetCount, Returns (VInt 1));
     (CallPush 3%N, Returns VVoid); (CallGetCount, Returns (VInt 2));
     (CallPop, Returns (VPtr 3%N))].
Proof. reflexivity. Qed.

(** What is left in the pool at the end of [main] is object 1, and the
    destructor deletes exactly that one. *)
Example main_teardown :
  let s := snd (run [CallPush 1%N; CallPush 2%N; CallPush 3%N; CallPop; CallPop;
                     CallPush 3%N; CallPop] (ctor 10)) in
  option_map (fun rs => (fst rs, deleted (log (snd rs)))) (dtor s)
  = Some (Returns tt, [1%N]).
Proof. reflexivity. Qed.

(** ** Further properties of the member functions *)

Lemma run_app (cs1 cs2 : list call) :
  forall s,
    run (cs1 ++ cs2) s =
    (fst (run cs1 s) ++ fst (run cs2 (snd (run cs1 s))),
     snd (run cs2 (snd (run cs1 s)))).
Proof.
  induction cs1 as [| c cs1 IH]; intros s.
  - cbn [app run fst snd]. now destruct (run cs2 s).
  - rewrite <- app_comm_cons, !run_cons, IH. reflexivity.
Qed.

Lemma exec_Pop_cons (s : ObjectPool) (obj : ptr) (rest : list ptr) :
  pool s = obj :: rest ->
  exec CallPop s = (Returns (VPtr obj), emit Unlock (set_pool rest (emit Lock s))).
Proof.
  intros E. unfold exec, bind. now rewrite (Pop_cons s obj rest E).
Qed.

Lemma exec_Pop_empty (s : ObjectPool) :
  pool s = [] ->
  exec CallPop s = (Throws (runtime_error "池是空的！"), emit Unlock (emit Lock s)).
Proof.
  intros E. unfold exec, bind. now rewrite (Pop_empty s E).
Qed.

(** Popping as many times as a prefix of the stack is long. *)
Lemma run_pops (l : list ptr) :
  forall s rest,
    pool s = l ++ rest ->
    fst (run (repeat CallPop (length l)) s) = map (fun p => (CallPop, Returns (VPtr p))) l /\
    pool (snd (run (repeat CallPop (length l)) s)) = rest.
Proof.
  induction l as [| obj l IH]; intros s rest E; [now split | ].
  cbn [length repeat]. rewrite run_cons, (exec_Pop_cons s obj (l ++ rest) E).
  cbn [fst snd map].
  destruct (IH (emit Unlock (set_pool (l ++ rest) (emit Lock s))) rest eq_refl) as [H1 H2].
  now rewrite H1, H2.
Qed.

(** X1 (LIFO, any length): pushing any list of real pointers and then popping
    as many times returns them in reverse order, every call returning
    normally, and leaves the stack as it was before. *)
Theorem lifo_any_length (items : list ptr) (s : ObjectPool) :
  Forall (fun p => p <> nullptr) items ->
  fst (run (map CallPush items ++ repeat CallPop (length items)) s) =
    map (fun p => (CallPush p, Returns VVoid)) items ++
    map (fun p => (CallPop, Returns (VPtr p))) (rev items) /\
  pool (snd (run (map CallPush items ++ repeat CallPop (length items)) s)) = pool s.
Proof.
  intros Hn. rewrite run_app. cbn [fst snd].
  destruct (run_pushes items Hn s) as [H1 H2].
  rewrite <- (length_rev items).
  destruct (run_pops (rev items) _ (pool s) H2) as [H3 H4].
  now rewrite H1, H3, H4.
Qed.

Lemma lifo_any_length_witness :
  fst (run (map CallPush [5%N; 6%N; 7%N; 8%N] ++ repeat CallPop 4) (ctor 2)) =
    map (fun p => (CallPush p, Returns VVoid)) [5%N; 6%N; 7%N; 8%N] ++
    map (fun p => (CallPop, Returns (VPtr p))) (rev [5%N; 6%N; 7%N; 8%N]) /\
  pool (snd (run (map CallPush [5%N; 6%N; 7%N; 8%N] ++ repeat CallPop 4) (ctor 2))) =
    pool (ctor 2).
Proof.
  apply (lifo_any_length [5%N; 6%N; 7%N; 8%N] (ctor 2)).
  repeat constructor; discriminate.
Defined.

(** X2 (draining by [Pop]): on a pool holding k pointers, k calls of [Pop]
    return them from the top down and empty the stack; the call after that
    throws [runtime_error], and so does every later one. *)
Theorem Pop_until_empty (s : ObjectPool) (extra : nat) :
  fst (run (repeat CallPop (length (pool s)) ++ repeat CallPop extra) s) =
    map (fun p => (CallPop, Returns (VPtr p))) (pool s) ++
    repeat (CallPop, Throws (runtime_error "池是空的！")) extra /\
  pool (snd (run (repeat CallPop (length (pool s)) ++ repeat CallPop extra) s)) = [].
Proof.
  rewrite run_app. cbn [fst snd].
  destruct (run_pops (pool s) s [] (eq_sym (app_nil_r _))) as [H1 H2].
  rewrite H1. clear H1.
  generalize dependent (snd (run (repeat CallPop (length (pool s))) s)).
  induction extra as [| n IH]; intros t Ht; [now split | ].
  cbn [repeat]. rewrite run_cons, (exec_Pop_empty t Ht). cbn [fst snd].
  destruct (IH (emit Unlock (emit Lock t)) Ht) as [H3 H4].
  split; [ | exact H4].
  apply app_inv_head in H3. rewrite H3. reflexivity.
Qed.

(** X3 (borrow and give back): when [Pop] returns an object from a pool that
    stores no [nullptr], pushing that object back returns normally and the
    stack is the one from before the [Pop]. *)
Theorem Pop_then_Push_restores (s s1 : ObjectPool) (obj : ptr) :
  no_null s ->
  Pop s = (Returns obj, s1) ->
  exists s2, Push obj s1 = (Returns tt, s2) /\ pool s2 = pool s /\ capacity s2 = capacity s.
Proof.
  intros Hs HP. apply Pop_returns_inv in HP as [rest [Hp ->]].
  unfold no_null in Hs. rewrite Hp in Hs. inversion Hs as [| ? ? Hobj _]; subst.
  eexists. split; [apply (Push_valid _ obj Hobj) | ].
  cbn [pool capacity emit set_pool]. now rewrite Hp.
Qed.

Lemma Pop_then_Push_restores_witness :
  exists s2,
    Push 2%N (snd (Pop (snd (run [CallPush 1%N; CallPush 2%N] (ctor 10)))))
      = (Returns tt, s2) /\
    pool s2 = pool (snd (run [CallPush 1%N; CallPush 2%N] (ctor 10))) /\
    capacity s2 = capacity (snd (run [CallPush 1%N; CallPush 2%N] (ctor 10))).
Proof.
  apply (Pop_then_Push_restores
           (snd (run [CallPush 1%N; CallPush 2%N] (ctor 10)))
           (snd (Pop (snd (run [CallPush 1%N; CallPush 2%N] (ctor 10)))))
           2%N).
  - repeat constructor; discriminate.
  - reflexivity.
Defined.

(** X4 (when a call throws): [Pop] throws exactly on an empty stack, and then
    [runtime_error]; [Push] throws exactly on [nullptr], and then
    [invalid_argument]; [GetCount] and [GetCapacity] never throw.  No call
    runs into undefined behaviour, and a call that throws leaves the stack
    and the capacity as they were. *)
Theorem throws_exactly_when (c : call) (s : ObjectPool) :
  (forall e,
     fst (exec c s) = Throws e <->
     (c = CallPop /\ pool s = [] /\ e = runtime_error "池是空的！") \/
     (c = CallPush nullptr /\ e = invalid_argument "不能把 nullptr 放进对象池")) /\
  fst (exec c s) <> Undefined /\
  (forall e,
     fst (exec c s) = Throws e ->
     pool (snd (exec c s)) = pool s /\ capacity (snd (exec c s)) = capacity s).
Proof.
  split; [ | split; [apply exec_defined | ]].
  - intros e. destruct c as [ | | | item].
    + split; [discriminate | intros [[H _] | [H _]]; discriminate].
    + unfold exec, bind. rewrite GetCount_eq. cbn [fst].
      split; [discriminate | intros [[H _] | [H _]]; discriminate].
    + destruct (pool s) as [| obj rest] eqn:E.
      * rewrite (exec_Pop_empty s E). cbn [fst]. split.
        -- intros H. inversion H. now left.
        -- intros [[_ [_ ->]] | [H _]]; [reflexivity | discriminate].
      * rewrite (exec_Pop_cons s obj rest E). cbn [fst]. split.
        -- discriminate.
        -- intros [[_ [H _]] | [H _]]; discriminate.
    + destruct (N.eq_dec item nullptr) as [-> | Hn].
      * unfold exec, bind. rewrite Push_null. cbn [fst]. split.
        -- intros H. inversion H. now right.
        -- intros [[H _] | [_ ->]]; [discriminate | reflexivity].
      * rewrite (exec_Push_valid s item Hn). cbn [fst]. split.
        -- discriminate.
        -- intros [[H _] | [H _]]; [discriminate | ].
           inversion H. contradiction.
  - intros e He. destruct (exec_step c s) as [St Hc].
    split; [ | exact Hc].
    destruct St as [item s' Hn Hp | obj s' Hp | c' r s' _ _ _ _ _ Hp];
      try discriminate. exact Hp.
Qed.

(** *** The mutex *)

Lemma lock_pairs_app (m n : nat) :
  lock_pairs (m + n) = lock_pairs m ++ lock_pairs n.
Proof. induction m as [| m IH]; cbn; [reflexivity | now rewrite IH]. Qed.

Lemma exec_log (c : call) (s : ObjectPool) :
  log (snd (exec c s)) = log s ++ (if takes_lock c then [Lock; Unlock] else []).
Proof.
  destruct c as [ | | | item]; cbn [takes_lock].
  - cbn. now rewrite app_nil_r.
  - unfold exec, bind. rewrite GetCount_eq. cbn. now rewrite <- app_assoc.
  - destruct (pool s) as [| obj rest] eqn:E.
    + rewrite (exec_Pop_empty s E). cbn. now rewrite <- app_assoc.
    + rewrite (exec_Pop_cons s obj rest E). cbn. now rewrite <- app_assoc.
  - destruct (N.eq_dec item nullptr) as [-> | Hn].
    + cbn. now rewrite app_nil_r.
    + rewrite (exec_Push_valid s item Hn).
      apply N.eqb_neq in Hn. rewrite Hn. cbn. now rewrite <- app_assoc.
Qed.

Lemma run_log (cs : list call) :
  forall s,
    log (snd (run cs s)) = log s ++ lock_pairs (length (filter takes_lock cs)).
Proof.
  induction cs as [| c cs IH]; intros s.
  - cbn. now rewrite app_nil_r.
  - rewrite run_cons. cbn [snd filter]. rewrite IH, exec_log, <- app_assoc.
    destruct (takes_lock c); reflexivity.
Qed.

(** X5 (the mutex is always given back): after any sequence of calls on a
    freshly constructed pool, the log is a row of pairs "mutex taken, mutex
    given back", one pair for each [GetCount], each [Pop] (also one that
    throws) and each [Push] of a real pointer, and none for [GetCapacity] and
    for a [Push] of [nullptr].  The mutex is never taken twice in a row, never
    left taken, and no call deletes an object. *)
Theorem mutex_always_released (cap : Z) (cs : list call) :
  log (snd (run cs (ctor cap))) = lock_pairs (length (filter takes_lock cs)) /\
  deleted (log (snd (run cs (ctor cap)))) = [].
Proof.
  split.
  - now rewrite run_log.
  - now rewrite run_deleted.
Qed.

(** *** Reading calls *)

Lemma exec_same_fields (c : call) (s t : ObjectPool) :
  same_fields s t ->
  fst (exec c s) = fst (exec c t) /\
  same_fields (snd (exec c s)) (snd (exec c t)).
Proof.
  intros [Hp Hc]. unfold same_fields.
  destruct c as [ | | | item].
  - cbn. now rewrite Hc.
  - unfold exec, bind. rewrite !GetCount_eq. cbn. now rewrite Hp.
  - destruct (pool t) as [| obj rest] eqn:E.
    + rewrite (exec_Pop_empty s), (exec_Pop_empty t) by congruence. cbn. now rewrite Hp.
    + rewrite (exec_Pop_cons s obj rest), (exec_Pop_cons t obj rest) by congruence.
      cbn. now rewrite Hc.
  - destruct (N.eq_dec item nullptr) as [-> | Hn].
    + cbn. now rewrite Hp.
    + rewrite !exec_Push_valid by assumption. cbn. now rewrite Hp, Hc.
Qed.

Lemma exec_query_same_fields (q : call) (s : ObjectPool) :
  is_query q = true -> same_fields (snd (exec q s)) s.
Proof.
  intros Hq. destruct q; try discriminate; now split.
Qed.

Lemma run_without_queries (cs : list call) :
  forall s t,
    same_fields s t ->
    filter (fun e => negb (is_query (fst e))) (fst (run cs s)) =
      fst (run (filter (fun c => negb (is_query c)) cs) t) /\
    same_fields (snd (run cs s)) (snd (run (filter (fun c => negb (is_query c)) cs) t)).
Proof.
  induction cs as [| c cs IH]; intros s t Hst; [now split | ].
  rewrite run_cons. cbn [fst snd filter].
  destruct (is_query c) eqn:Hq; cbn [negb].
  - apply IH. destruct (exec_query_same_fields c s Hq) as [H1 H2].
    destruct Hst as [H3 H4]. split; congruence.
  - rewrite run_cons. cbn [fst snd].
    destruct (exec_same_fields c s t Hst) as [Hr Hs'].
    destruct (IH _ _ Hs') as [H1 H2].
    now rewrite Hr, H1.
Qed.

(** X6 ([GetCount] and [GetCapacity] only read): striking the [GetCount] and
    [GetCapacity] calls out of any sequence of calls changes no outcome of the
    calls that remain, and ends with the same stack and the same capacity. *)
Theorem queries_only_read (cs : list call) (s : ObjectPool) :
  filter (fun e => negb (is_query (fst e))) (fst (run cs s)) =
    fst (run (filter (fun c => negb (is_query c)) cs) s) /\
  pool (snd (run cs s)) = pool (snd (run (filter (fun c => negb (is_query c)) cs) s)) /\
  capacity (snd (run cs s)) =
    capacity (snd (run (filter (fun c => negb (is_query c)) cs) s)).
Proof.
  destruct (run_without_queries cs s s (conj eq_refl eq_refl)) as [H1 [H2 H3]].
  now repeat split.
Qed.

(** *** Who owns what *)





(** *** What [GetCount] can tell *)


(** X8 (what [GetCount] returns): in every state [GetCount] returns normally
    an [int] that differs from the number of stored objects by a multiple of
    2^32, changes neither stack nor capacity, and is that number exactly if
    and only if the number is at most [INT_MAX]. *)
Theorem GetCount_exact_iff (s : ObjectPool) :
  (exists z,
     fst (GetCount s) = Returns z /\
     Int.int_min <= z <= Int.int_max /\
     (Z.of_nat (length (pool s)) - z) mod 4294967296 = 0) /\
  (fst (GetCount s) = Returns (Z.of_nat (length (pool s))) <->
   Z.of_nat (length (pool s)) <= Int.int_max) /\
  pool (snd (GetCount s)) = pool s /\
  capacity (snd (GetCount s)) = capacity s.
Proof.
  rewrite GetCount_eq. cbn [fst snd pool capacity emit].
  destruct (to_int_range (Z.of_nat (length (pool s)))) as [Hr Hm].
  split; [eexists; split; [reflexivity | split; assumption] | ].
  split; [ | split; reflexivity].
  split.
  - intros H. inversion H as [E]. rewrite E in Hr. lia.
  - intros H. f_equal. apply to_int_small. unfold Int.int_min. lia.
Qed.

(** ** The pool of [Connection] objects *)

Lemma append_assoc (a b c : string) : ((a ++ b) ++ c = a ++ (b ++ c))%string.
Proof. induction a as [| x a IH]; cbn; [reflexivity | now rewrite IH]. Qed.

Lemma append_empty_r (a : string) : (a ++ EmptyString = a)%string.
Proof. induction a as [| x a IH]; cbn; [reflexivity | now rewrite IH]. Qed.

Lemma lookup_release_same (p : ptr) (h : list (ptr * Connection)) :
  lookup p (release p h) = None.
Proof.
  induction h as [| [q c] h IH]; [reflexivity | ].
  unfold release in *. cbn [filter fst].
  destruct (p =? q)%N eqn:E; cbn [negb]; [exact IH | ].
  cbn [lookup]. now rewrite E.
Qed.

Lemma lookup_release_other (p q : ptr) (h : list (ptr * Connection)) :
  p <> q -> lookup q (release p h) = lookup q h.
Proof.
  intros Hne. induction h as [| [r c] h IH]; [reflexivity | ].
  unfold release in *. cbn [filter fst lookup].
  destruct (p =? r)%N eqn:E; cbn [negb].
  - apply N.eqb_eq in E. subst r.
    assert (Hq : (q =? p)%N = false) by (apply N.eqb_neq; congruence).
    now rewrite Hq.
  - cbn [lookup]. now rewrite IH.
Qed.

Lemma lookup_release_all_other (l : list ptr) :
  forall h q, ~ In q l -> lookup q (release_all l h) = lookup q h.
Proof.
  unfold release_all.
  induction l as [| p l IH]; intros h q Hq; [reflexivity | ].
  cbn [fold_left]. rewrite IH by (intros H; apply Hq; now right).
  apply lookup_release_other. intros ->. apply Hq. now left.
Qed.

Lemma lookup_release_all_same (l : list ptr) :
  forall h p, In p l -> lookup p (release_all l h) = None.
Proof.
  unfold release_all.
  induction l as [| q l IH]; intros h p Hp; [contradiction | ].
  cbn [fold_left]. destruct (in_dec N.eq_dec p l) as [Hin | Hnin].
  - now apply IH.
  - destruct Hp as [-> | Hp]; [ | contradiction].
    fold (release_all l (release p h)).
    rewrite lookup_release_all_other by assumption.
    apply lookup_release_same.
Qed.

Lemma destroyed_texts_ext (l : list ptr) (h1 h2 : list (ptr * Connection)) :
  (forall p, In p l -> lookup p h1 = lookup p h2) ->
  destroyed_texts l h1 = destroyed_texts l h2.
Proof.
  induction l as [| p l IH]; intros H; [reflexivity | ].
  cbn [destroyed_texts]. rewrite (H p) by now left.
  rewrite IH; [reflexivity | ]. intros q Hq. apply H. now right.
Qed.

Lemma dtor_loop_Connection_drains (stk : list ptr) :
  forall (fuel : nat) (cap : Z) (l : list event) (w : world),
    (length stk <= fuel)%nat ->
    NoDup stk ->
    (forall p, In p stk -> p <> nullptr /\ lookup p (heap w) <> None) ->
    dtor_loop_Connection fuel (mkObjectPool stk cap l) w =
    Some (Returns tt,
          mkObjectPool [] cap (l ++ map Delete stk),
          mkWorld (release_all stk (heap w))
                  (cout w ++ destroyed_texts stk (heap w))%string).
Proof.
  induction stk as [| obj rest IH]; intros fuel cap l w Hf Hnd Hlive.
  - destruct fuel; cbn; rewrite app_nil_r, append_empty_r; now destruct w.
  - destruct fuel as [| fuel]; [cbn in Hf; lia | ].
    cbn [length] in Hf. apply le_S_n in Hf.
    inversion Hnd as [| ? ? Hobj Hnd']; subst.
    destruct (Hlive obj (or_introl eq_refl)) as [Hnn Hl].
    destruct (lookup obj (heap w)) as [c | ] eqn:El; [ | congruence].
    cbn [dtor_loop_Connection stack_empty pool].
    unfold bind, stack_top, stack_pop, ret. cbn [pool set_pool capacity log].
    unfold delete_Connection. apply N.eqb_neq in Hnn. rewrite Hnn, El.
    unfold emit. cbn [pool capacity log].
    rewrite IH; [ | exact Hf | exact Hnd' | ].
    + cbn [heap cout map destroyed_texts release_all fold_left]. rewrite El.
      rewrite (destroyed_texts_ext rest (release obj (heap w)) (heap w)).
      * rewrite <- app_assoc, append_assoc. reflexivity.
      * intros p Hp. apply lookup_release_other. intros ->. contradiction.
    + intros p Hp. cbn [heap]. destruct (Hlive p (or_intror Hp)) as [H1 H2].
      split; [exact H1 | ].
      rewrite lookup_release_other; [exact H2 | ]. intros ->. contradiction.
Qed.

Lemma dtor_loop_Connection_fails (stk : list ptr) :
  forall (fuel : nat) (cap : Z) (l : list event) (w : world),
    (length stk <= fuel)%nat ->
    Forall (fun p => p <> nullptr) stk ->
    ~ NoDup stk \/ (exists p, In p stk /\ lookup p (heap w) = None) ->
    exists s' w', dtor_loop_Connection fuel (mkObjectPool stk cap l) w = Some (Undefined, s', w').
Proof.
  induction stk as [| obj rest IH]; intros fuel cap l w Hf Hnn Hbad.
  - destruct Hbad as [H | [p [[] _]]]. destruct H. constructor.
  - destruct fuel as [| fuel]; [cbn in Hf; lia | ].
    cbn [length] in Hf. apply le_S_n in Hf.
    inversion Hnn as [| ? ? Hobj Hnn']; subst.
    cbn [dtor_loop_Connection stack_empty pool].
    unfold bind, stack_top, stack_pop, ret. cbn [pool set_pool capacity log].
    unfold delete_Connection. apply N.eqb_neq in Hobj. rewrite Hobj.
    destruct (lookup obj (heap w)) as [c | ] eqn:El; [ | eauto].
    unfold emit. cbn [pool capacity log].
    apply IH; [exact Hf | exact Hnn' | ]. cbn [heap].
    destruct (in_dec N.eq_dec obj rest) as [Hin | Hnin].
    { right. exists obj. split; [exact Hin | apply lookup_release_same]. }
    destruct Hbad as [Hdup | [p [[<- | Hp] Hnone]]].
    + left. intros Hnd. apply Hdup. now constructor.
    + congruence.
    + right. exists p. split; [exact Hp | ].
      rewrite lookup_release_other; [exact Hnone | ]. intros ->. contradiction.
Qed.

(** X9 (teardown of a pool of connections): when the stored pointers are
    distinct, not null and all alive, the destructor of the pool returns
    normally, empties the stack, runs the destructor of each stored
    [Connection] from the top of the stack down (their lines appear on
    [std::cout] in that order), releases exactly those objects and leaves
    every other object alive and untouched.  On the pool itself it has the
    effect of the destructor taken for an arbitrary [T]. *)
Theorem dtor_Connection_releases (s : ObjectPool) (w : world) :
  NoDup (pool s) ->
  (forall p, In p (pool s) -> p <> nullptr /\ lookup p (heap w) <> None) ->
  exists s' w',
    dtor_Connection s w = Some (Returns tt, s', w') /\
    dtor s = Some (Returns tt, s') /\
    pool s' = [] /\
    cout w' = (cout w ++ destroyed_texts (pool s) (heap w))%string /\
    (forall p, In p (pool s) -> lookup p (heap w') = None) /\
    (forall q, ~ In q (pool s) -> lookup q (heap w') = lookup q (heap w)).
Proof.
  intros Hnd Hlive. destruct s as [stk cap l]. cbn [pool] in *.
  unfold dtor_Connection, dtor. cbn [pool].
  eexists. eexists.
  split; [apply dtor_loop_Connection_drains; [apply le_n | exact Hnd | exact Hlive] | ].
  split; [apply dtor_loop_drains; apply le_n | ].
  cbn [pool cout heap]. repeat split.
  - intros p Hp. now apply lookup_release_all_same.
  - intros q Hq. now apply lookup_release_all_other.
Qed.

Lemma dtor_Connection_releases_witness :
  let s := snd (run [CallPush 16%N; CallPush 32%N] (ctor 10)) in
  let w := new_Connection 48%N 3 (new_Connection 32%N 2
             (new_Connection 16%N 1 (mkWorld [] EmptyString))) in
  exists s' w',
    dtor_Connection s w = Some (Returns tt, s', w') /\
    dtor s = Some (Returns tt, s') /\
    pool s' = [] /\
    cout w' = (cout w ++ destroyed_texts (pool s) (heap w))%string /\
    (forall p, In p (pool s) -> lookup p (heap w') = None) /\
    (forall q, ~ In q (pool s) -> lookup q (heap w') = lookup q (heap w)).
Proof.
  cbv zeta.
  apply (dtor_Connection_releases
           (snd (run [CallPush 16%N; CallPush 32%N] (ctor 10)))
           (new_Connection 48%N 3 (new_Connection 32%N 2
              (new_Connection 16%N 1 (mkWorld [] EmptyString))))).
  - cbn. repeat constructor; cbn; intuition discriminate.
  - cbn. intros p [<- | [<- | []]]; split; discriminate.
Defined.

(** X10 (double delete): [Push] does not look whether a pointer is already
    stored, and the destructor deletes whatever is stored.  When the stack
    holds no [nullptr] but holds some pointer twice, or a pointer to an
    object that is no longer alive, the destructor of the pool runs into
    undefined behaviour: it deletes an object that is not alive. *)
Theorem dtor_Connection_double_delete (s : ObjectPool) (w : world) :
  no_null s ->
  ~ NoDup (pool s) \/ (exists p, In p (pool s) /\ lookup p (heap w) = None) ->
  exists s' w', dtor_Connection s w = Some (Undefined, s', w').
Proof.
  intros Hn Hbad. destruct s as [stk cap l]. unfold no_null in Hn. cbn [pool] in *.
  unfold dtor_Connection. cbn [pool].
  apply dtor_loop_Connection_fails; [apply le_n | exact Hn | exact Hbad].
Qed.

Lemma dtor_Connection_double_delete_witness :
  exists s' w',
    dtor_Connection (snd (run [CallPush 16%N; CallPush 16%N] (ctor 10)))
                    (new_Connection 16%N 1 (mkWorld [] EmptyString))
    = Some (Undefined, s', w').
Proof.
  apply (dtor_Connection_double_delete
           (snd (run [CallPush 16%N; CallPush 16%N] (ctor 10)))
           (new_Connection 16%N 1 (mkWorld [] EmptyString))).
  - cbn. repeat constructor; discriminate.
  - left. cbn. intros H. inversion H as [| ? ? Hin _]. apply Hin. now left.
Defined.

(** X11 (the demo program): whatever distinct addresses the three [new]
    expressions yield, [main] returns 0 without undefined behaviour and
    without an exception, writes the lines the source gives as its expected
    output (but for the check mark the source shows on one line and [main]
    does not print), and ends with no [Connection] alive: the two objects
    still lent out are deleted by [main] and the one left in the pool by the
    destructor of the pool, each once. *)
Theorem main_runs_clean (a1 a2 a3 : ptr) :
  a1 <> nullptr -> a2 <> nullptr -> a3 <> nullptr ->
  a1 <> a2 -> a1 <> a3 -> a2 <> a3 ->
  exists s',
    main a1 a2 a3 (mkWorld [] EmptyString) =
      Some (Returns 0, s', mkWorld [] expected_output) /\
    pool s' = [] /\
    deleted (log s') = [a1].
Proof.
  intros H1 H2 H3 H12 H13 H23.
  assert (E1 : (a1 =? nullptr)%N = false) by now apply N.eqb_neq.
  assert (E2 : (a2 =? nullptr)%N = false) by now apply N.eqb_neq.
  assert (E3 : (a3 =? nullptr)%N = false) by now apply N.eqb_neq.
  assert (E21 : (a2 =? a1)%N = false) by (apply N.eqb_neq; congruence).
  assert (E31 : (a3 =? a1)%N = false) by (apply N.eqb_neq; congruence).
  assert (E32 : (a3 =? a2)%N = false) by (apply N.eqb_neq; congruence).
  assert (E12 : (a1 =? a2)%N = false) by (apply N.eqb_neq; congruence).
  assert (E13 : (a1 =? a3)%N = false) by (apply N.eqb_neq; congruence).
  assert (E23 : (a2 =? a3)%N = false) by (apply N.eqb_neq; congruence).
  unfold main, main_body, dtor_Connection.
  unfold bindP, on_pool, on_world, say, new_at, retP, Push, delete_Connection, GetId, Use.
  repeat (cbn -[N.eqb expected_output]; unfold delete_Connection;
          rewrite ?N.eqb_refl, ?E1, ?E2, ?E3, ?E21, ?E31, ?E32, ?E12, ?E13, ?E23).
  eexists. split; [reflexivity | split; reflexivity].
Qed.

Lemma main_runs_clean_witness :
  exists s',
    main 16%N 32%N 48%N (mkWorld [] EmptyString) =
      Some (Returns 0, s', mkWorld [] expected_output) /\
    pool s' = [] /\
    deleted (log s') = [16%N].
Proof.
  apply (main_runs_clean 16%N 32%N 48%N); discriminate.
Defined.

(** ** What the capacity and the history decide *)

Lemma exec_same_pool (c : call) (s t : ObjectPool) :
  pool s = pool t ->
  (is_GetCapacity c = false -> fst (exec c s) = fst (exec c t)) /\
  pool (snd (exec c s)) = pool (snd (exec c t)).
Proof.
  intros Hp. destruct c as [ | | | item].
  - split; [discriminate | exact Hp].
  - unfold exec, bind. rewrite !GetCount_eq. cbn. now rewrite Hp.
  - destruct (pool t) as [| obj rest] eqn:E.
    + rewrite (exec_Pop_empty s), (exec_Pop_empty t) by congruence. cbn. now rewrite Hp.
    + rewrite (exec_Pop_cons s obj rest), (exec_Pop_cons t obj rest) by congruence.
      now split.
  - destruct (N.eq_dec item nullptr) as [-> | Hn].
    + cbn. now split.
    + rewrite !exec_Push_valid by assumption. cbn. now rewrite Hp.
Qed.

Lemma run_same_pool (cs : list call) :
  forall s t,
    pool s = pool t ->
    filter (fun e => negb (is_GetCapacity (fst e))) (fst (run cs s)) =
      filter (fun e => negb (is_GetCapacity (fst e))) (fst (run cs t)) /\
    pool (snd (run cs s)) = pool (snd (run cs t)).
Proof.
  induction cs as [| c cs IH]; intros s t Hp; [now split | ].
  rewrite !run_cons. cbn [fst snd filter].
  destruct (exec_same_pool c s t Hp) as [Hr Hp'].
  destruct (IH _ _ Hp') as [H1 H2].
  split; [ | exact H2].
  destruct (is_GetCapacity c) eqn:Ec; cbn [negb]; [exact H1 | ].
  now rewrite (Hr eq_refl), H1.
Qed.

(** X12 (the capacity decides nothing): two pools constructed with different
    capacities and given the same sequence of calls answer every call other
    than [GetCapacity] alike and end with the same stack. *)
Theorem capacity_decides_nothing (cap1 cap2 : Z) (cs : list call) :
  filter (fun e => negb (is_GetCapacity (fst e))) (fst (run cs (ctor cap1))) =
    filter (fun e => negb (is_GetCapacity (fst e))) (fst (run cs (ctor cap2))) /\
  pool (snd (run cs (ctor cap1))) = pool (snd (run cs (ctor cap2))).
Proof.
  apply run_same_pool. reflexivity.
Qed.

Lemma pushed_cons_incl (e : call * result value) (h : list (call * result value)) (p : ptr) :
  In p (pushed h) -> In p (pushed (e :: h)).
Proof.
  intros H. destruct e as [[ | | | item] [[z | q | ] | x | ]]; cbn [pushed];
    try exact H; now right.
Qed.

Lemma pushed_app (h1 h2 : list (call * result value)) :
  pushed (h1 ++ h2) = pushed h1 ++ pushed h2.
Proof.
  induction h1 as [| e h1 IH]; [reflexivity | ].
  destruct e as [[ | | | item] [[z | q | ] | x | ]]; cbn [app pushed];
    rewrite IH; reflexivity.
Qed.

Lemma pushed_pops (l : list ptr) :
  pushed (map (fun q => (CallPop, Returns (VPtr q))) l) = [].
Proof. induction l as [| q l IH]; [reflexivity | exact IH]. Qed.

Lemma popped_from_pool_or_pushed (cs : list call) :
  forall s h1 h2 p,
    fst (run cs s) = h1 ++ (CallPop, Returns (VPtr p)) :: h2 ->
    In p (pool s) \/ In p (pushed h1).
Proof.
  induction cs as [| c cs IH]; intros s h1 h2 p E.
  - cbn in E. now destruct h1.
  - rewrite run_cons in E. cbn [fst] in E.
    destruct (exec_step c s) as [St _].
    revert E.
    generalize (fst (exec c s)) (snd (exec c s)) St. clear St.
    intros r s' St E.
    destruct h1 as [| e h1].
    + cbn [app] in E. inversion E; subst.
      inversion St as [ | obj s0 Hp | c' r' s0 _ Ht]; subst.
      * left. rewrite Hp. now left.
      * discriminate.
    + rewrite <- app_comm_cons in E. inversion E as [[He Hrest]]. subst e.
      destruct (IH s' h1 h2 p Hrest) as [Hin | Hin].
      * destruct St as [item s0 Hn Hp | obj s0 Hp | c' r' s0 _ _ _ _ _ Hp].
        -- rewrite Hp in Hin. destruct Hin as [<- | Hin]; [right; now left | now left].
        -- left. rewrite Hp. now right.
        -- left. now rewrite <- Hp.
      * right. now apply pushed_cons_incl.
Qed.

(** X13 (the pool hands out only what it was given): in every history of a
    freshly constructed pool, a pointer returned by a [Pop] was pushed by a
    [Push] that returned earlier in that history, and what is left in the
    stack at the end was pushed as well. *)
Theorem Pop_returns_only_what_was_pushed (cap : Z) (cs : list call) :
  (forall h1 h2 p,
     fst (run cs (ctor cap)) = h1 ++ (CallPop, Returns (VPtr p)) :: h2 ->
     In p (pushed h1)) /\
  (forall p,
     In p (pool (snd (run cs (ctor cap)))) -> In p (pushed (fst (run cs (ctor cap))))).
Proof.
  split.
  - intros h1 h2 p E.
    destruct (popped_from_pool_or_pushed cs (ctor cap) h1 h2 p E) as [[] | H]. exact H.
  - intros p Hp.
    assert (E : fst (run (cs ++ repeat CallPop (length (pool (snd (run cs (ctor cap))))))
                         (ctor cap)) =
                fst (run cs (ctor cap)) ++
                map (fun q => (CallPop, Returns (VPtr q))) (pool (snd (run cs (ctor cap))))).
    { rewrite run_app. cbn [fst].
      destruct (run_pops (pool (snd (run cs (ctor cap)))) (snd (run cs (ctor cap))) []
                  (eq_sym (app_nil_r _))) as [H _].
      now rewrite H. }
    apply in_split in Hp as [l1 [l2 Hl]].
    rewrite Hl, map_app in E. cbn [map] in E. rewrite app_assoc in E.
    destruct (popped_from_pool_or_pushed _ _ _ _ _ E) as [[] | H].
    now rewrite pushed_app, pushed_pops, app_nil_r in H.
Qed.
